(** * dvl_a50_driver: the command/response correlation of the DVL A50 driver

    A shallow embedding of [driver.hpp] and of the driver's translation unit:
    the constructor, the destructor, [DvlA50Driver::send_request] and the
    four public commands.  The pending-request table [responses_] is a finite
    map from the command type to a queue of requests, the mutex a flag, and
    the shared states of the promises a store indexed by handle; member
    functions run in a small state monad over that world.

    The source defines neither the transport nor the receive loop nor the
    timeout sweeper.  Where a statement needs them they are modelled from
    the specification, each such definition saying so, and run beside the
    source's commands as turns of a small-step system. *)

From Stdlib Require Import ZArith QArith String Ascii List Lia.
From stdpp Require Import base option list gmap strings sorting.

Local Open Scope Z_scope.
Local Open Scope string_scope.
Local Open Scope list_scope.

(** ** Data of driver.hpp *)

(** [struct Response { bool success; std::string error_message; }]. *)
Record Response := mkResponse {
  success : bool;
  error_message : string
}.

(** The shared state behind a [std::promise<std::optional<Response>>] and the
    [std::future] obtained from it.  It is not ready until a value is stored
    ([set_value]); a promise destroyed before that abandons the state, which
    stores the error [broken_promise] and becomes ready. *)
Inductive shared_state :=
| NotReady
| HasValue (v : option Response)
| BrokenPromise.

Definition is_ready (s : shared_state) : bool :=
  match s with
  | NotReady => false
  | HasValue _ | BrokenPromise => true
  end.

(** A promise and the future taken from it name the same shared state. *)
Abbreviation handle := nat (only parsing).

(** [struct Request { time_point ts; duration<double> timeout; promise }]:
    [ts] in ticks (nanoseconds) of the steady clock, [timeout] in seconds. *)
Record Request := mkRequest {
  ts : Z;
  timeout : Q;
  promise : handle
}.

(** A [std::thread] member: [None] when it holds no thread of execution. *)
Inductive activity := PollLoop | Watchdog.

(** The data members of [class DvlA50Driver]. *)
Record DvlA50Driver := mkDriver {
  poll_thread_ : option activity;
  watchdog_thread_ : option activity;
  responses_ : gmap string (list Request);
  responses_mutex_ : bool
}.

(** What the code does, in program order. *)
Inductive event :=
| EvLock
| EvUnlock
| EvPush (type : string) (r : Request)
| EvTake (rs : list Request)
| EvSend (message : string)
| EvSetValue (p : handle) (v : option Response).

(** The world a member function runs in: the steady clock, the store of
    shared states, the transport to the device, the driver object itself,
    and the record of what was done. *)
Record World := mkWorld {
  steady_clock : Z;
  shared : list shared_state;
  link_up : bool;
  wire : list string;
  this : DvlA50Driver;
  trace : list event
}.

Definition set_this (d : DvlA50Driver) (w : World) : World :=
  mkWorld (steady_clock w) (shared w) (link_up w) (wire w) d (trace w).

Definition set_shared (s : list shared_state) (w : World) : World :=
  mkWorld (steady_clock w) s (link_up w) (wire w) (this w) (trace w).

Definition set_wire (l : list string) (w : World) : World :=
  mkWorld (steady_clock w) (shared w) (link_up w) l (this w) (trace w).

Definition set_clock (t : Z) (w : World) : World :=
  mkWorld t (shared w) (link_up w) (wire w) (this w) (trace w).

Definition record (e : event) (w : World) : World :=
  mkWorld (steady_clock w) (shared w) (link_up w) (wire w) (this w)
          (trace w ++ [e]).

Definition set_responses (m : gmap string (list Request)) (d : DvlA50Driver)
  : DvlA50Driver :=
  mkDriver (poll_thread_ d) (watchdog_thread_ d) m (responses_mutex_ d).

Definition set_mutex (b : bool) (d : DvlA50Driver) : DvlA50Driver :=
  mkDriver (poll_thread_ d) (watchdog_thread_ d) (responses_ d) b.

(** ** A state monad for member functions

    A computation either finishes with a result and a new world, or blocks
    (locking a mutex that is held). *)
Inductive outcome (A : Type) :=
| Done (a : A) (w : World)
| Blocked.
Arguments Done {A} a w.
Arguments Blocked {A}.

Definition M (A : Type) := World -> outcome A.

Definition ret {A} (a : A) : M A := fun w => Done a w.

Definition bind {A B} (m : M A) (k : A -> M B) : M B :=
  fun w => match m w with
           | Done a w' => k a w'
           | Blocked => Blocked
           end.

Notation "x <- m ;; k" := (bind m (fun x => k))
  (at level 100, m at next level, right associativity).
Notation "m ;;; k" := (bind m (fun _ => k))
  (at level 100, right associativity).

(** [std::chrono::steady_clock::now()]. *)
Definition steady_clock_now : M Z := fun w => Done (steady_clock w) w.

(** [std::promise<...> promise;] allocates a shared state that is not ready. *)
Definition make_promise : M handle :=
  fun w => Done (length (shared w)) (set_shared (shared w ++ [NotReady]) w).

(** [promise.get_future()]. *)
Definition get_future (p : handle) : M handle := ret p.

(** [responses_mutex_.lock()] and [unlock()], as [std::lock_guard] calls
    them on entry to and exit from its scope. *)
Definition lock : M unit :=
  fun w => if responses_mutex_ (this w) then Blocked
           else Done tt (record EvLock (set_this (set_mutex true (this w)) w)).

Definition unlock : M unit :=
  fun w => Done tt (record EvUnlock (set_this (set_mutex false (this w)) w)).

Definition lock_guard {A} (body : M A) : M A :=
  lock ;;; a <- body ;; unlock ;;; ret a.

(** [responses_[type].push(request)]: [operator[]] creates an empty queue
    for a key that is absent, [push] appends at the back. *)
Definition queue_of (m : gmap string (list Request)) (type : string)
  : list Request :=
  default [] (m !! type).

Definition push (type : string) (r : Request) : M unit :=
  fun w =>
    let m := responses_ (this w) in
    Done tt (record (EvPush type r)
               (set_this (set_responses (<[type := queue_of m type ++ [r]]> m)
                                        (this w)) w)).

(** ** The driver's member functions *)

(** [DvlA50Driver::DvlA50Driver(ip, port) {}]: every member is default
    initialised; no thread is started and no connection is opened. *)
Definition DvlA50Driver_ctor (ip : string) (port : Z) : DvlA50Driver :=
  mkDriver None None ∅ false.

(** [DvlA50Driver::send_request]. The source's first line is the comment
    [TODO(evan): send the message]; nothing is sent. *)
Definition send_request (type command : string) (timeout : Q) : M handle :=
  promise <- make_promise ;;
  future <- get_future promise ;;
  now <- steady_clock_now ;;
  let request := mkRequest now timeout promise in
  lock_guard (push type request) ;;;
  ret future.

(** The quotation mark, and a quoted JSON string. *)
Definition dq : string := String "034"%char EmptyString.
Definition quoted (s : string) : string := dq +:+ s +:+ dq.

(** [R"({"command": "<name>"})"]. *)
Definition command_json (name : string) : string :=
  "{" +:+ quoted "command" +:+ ": " +:+ quoted name +:+ "}".

(** [std::chrono::seconds(n)] as a [duration<double>]. *)
Definition seconds (n : Z) : Q := inject_Z n.

(** The default argument [timeout = std::chrono::seconds(3)] of the four
    declarations in driver.hpp: [None] is a call without the argument. *)
Definition timeout_arg (timeout : option Q) : Q :=
  default (seconds 3) timeout.

Definition calibrate_gyro (timeout : option Q) : M handle :=
  let command := command_json "calibrate_gyro" in
  send_request "calibrate_gyro" command (timeout_arg timeout).

Definition trigger_ping (timeout : option Q) : M handle :=
  let command := command_json "trigger_ping" in
  send_request "trigger_ping" command (timeout_arg timeout).

Definition reset_dead_reckoning (timeout : option Q) : M handle :=
  let command := command_json "reset_dead_reckoning" in
  send_request "reset_dead_reckoning" command (timeout_arg timeout).

(** [ss << R"({"command": "set_config",)" << config << "}"]. *)
Definition set_config_payload (config : string) : string :=
  ("{" +:+ quoted "command" +:+ ": " +:+ quoted "set_config" +:+ ",")
    +:+ config +:+ "}".

Definition set_config (config : string) (timeout : option Q) : M handle :=
  send_request "set_config" (set_config_payload config) (timeout_arg timeout).

(** [DvlA50Driver::~DvlA50Driver() {}]: after the empty body the members
    are destroyed; destroying [responses_] destroys every queued request and
    its promise, and a promise whose shared state is not ready abandons it. *)
Definition abandon (p : handle) (s : list shared_state) : list shared_state :=
  match s !! p with
  | Some NotReady => <[p := BrokenPromise]> s
  | _ => s
  end.

Definition queued_promises (m : gmap string (list Request)) : list handle :=
  promise <$> concat (snd <$> map_to_list m).

Definition DvlA50Driver_dtor (w : World) : list shared_state :=
  foldr abandon (shared w) (queued_promises (responses_ (this w))).

(** ** The public interface as data *)

Inductive command :=
| CalibrateGyro
| TriggerPing
| ResetDeadReckoning
| SetConfig (config : string).

(** The key under which a command's request is queued. *)
Definition command_type (c : command) : string :=
  match c with
  | CalibrateGyro => "calibrate_gyro"
  | TriggerPing => "trigger_ping"
  | ResetDeadReckoning => "reset_dead_reckoning"
  | SetConfig _ => "set_config"
  end.

(** The payload a command hands to [send_request]. *)
Definition command_payload (c : command) : string :=
  match c with
  | SetConfig config => set_config_payload config
  | _ => command_json (command_type c)
  end.

Definition invoke (c : command) (timeout : option Q) : M handle :=
  match c with
  | CalibrateGyro => calibrate_gyro timeout
  | TriggerPing => trigger_ping timeout
  | ResetDeadReckoning => reset_dead_reckoning timeout
  | SetConfig config => set_config config timeout
  end.

(** Every change of the table recorded in a trace happens between a lock
    and its unlock. *)
Fixpoint table_guarded (held : bool) (t : list event) : bool :=
  match t with
  | [] => true
  | EvLock :: t' => table_guarded true t'
  | EvUnlock :: t' => table_guarded false t'
  | EvPush _ _ :: t' | EvTake _ :: t' => held && table_guarded held t'
  | _ :: t' => table_guarded held t'
  end.

(** ** What [send_request] computes *)

(** The world [send_request] leaves behind when the mutex is free. *)
Definition queued_world (type : string) (timeout : Q) (w : World) : World :=
  let r := mkRequest (steady_clock w) timeout (length (shared w)) in
  let m := responses_ (this w) in
  mkWorld (steady_clock w) (shared w ++ [NotReady]) (link_up w) (wire w)
          (mkDriver (poll_thread_ (this w)) (watchdog_thread_ (this w))
                    (<[type := queue_of m type ++ [r]]> m) false)
          (trace w ++ [EvLock; EvPush type r; EvUnlock]).


(** ** Completing a promise *)

(** [promise.set_value(v)]: stores [v] in a shared state that is not ready;
    on any other state the call fails ([promise_already_satisfied]), which
    is reported as [false]. *)
Definition set_value (p : handle) (v : option Response) : M bool :=
  fun w =>
    match shared w !! p with
    | Some NotReady =>
        Done true (record (EvSetValue p v)
                     (set_shared (<[p := HasValue v]> (shared w)) w))
    | _ => Done false w
    end.

(** ** The transport and the dispatcher of the specification *)

(** Modelled from the spec: the transport's [send(bytes) -> ok/fail] of
    section 6.  driver.hpp declares [void send(const std::string &)] and no
    file defines it. *)
Definition send (message : string) : M bool :=
  fun w =>
    if link_up w
    then Done true (record (EvSend message) (set_wire (wire w ++ [message]) w))
    else Done false w.

(** Modelled from the spec: the Response of a transport failure (section 7:
    [success = false] and a descriptive message). *)
Definition transport_failure : Response :=
  mkResponse false "transport failure".

(** Modelled from the spec: the Command Dispatcher of section 4.1, in the
    spec's words: construct the request with [issuedAt = now()], append it
    under the lock, release the lock, send the payload, and resolve the
    handle at once when the send fails. *)
Definition issueCommand (type payload : string) (timeout : Q) : M handle :=
  promise <- make_promise ;;
  future <- get_future promise ;;
  now <- steady_clock_now ;;
  lock_guard (push type (mkRequest now timeout promise)) ;;;
  ok <- send payload ;;
  if ok : bool then ret future
  else (set_value promise (Some transport_failure) ;;; ret future).

(** ** The receive loop and the timeout sweeper of the specification

    driver.hpp declares [poll], [receive] and the members [poll_thread_]
    ("Poll incoming data") and [watchdog_thread_] ("Check for request
    timeouts"); no file defines what they run. *)

(** Modelled from the spec: the wire parser's result (section 6).  The
    fields of the two reports play no part in the correlation. *)
Inductive Message :=
| VelocityReport
| DeadReckoningReport
| CommandReply (type : string) (r : Response)
| Unrecognized.

(** Modelled from the spec: what [receiveLine()] hands to the loop. *)
Inductive inbound :=
| Line (m : Message)
| Disconnected.

(** Every request of the table. *)
Definition all_requests (m : gmap string (list Request)) : list Request :=
  concat (snd <$> map_to_list m).

(** An access to the table that yields a result, for use under the lock. *)
Definition table_update {A}
    (f : gmap string (list Request) -> A * gmap string (list Request))
  : M A :=
  fun w => let '(a, m') := f (responses_ (this w)) in
           Done a (set_this (set_responses m' (this w)) w).

Definition took (rs : list Request) : M unit :=
  fun w => Done tt (record (EvTake rs) w).

(** Taking requests out of the table inside one scope of the lock guard;
    [taken] lists what the result took. *)
Definition locked_take {A}
    (f : gmap string (list Request) -> A * gmap string (list Request))
    (taken : A -> list Request) : M A :=
  lock_guard (a <- table_update f ;; took (taken a) ;;; ret a).

(** Modelled from the spec: section 4.2, "pop the oldest PendingRequest for
    that type"; nothing is popped when the queue is empty or absent. *)
Definition table_pop (type : string) (m : gmap string (list Request))
  : option Request * gmap string (list Request) :=
  match m !! type with
  | Some (r :: q) => (Some r, <[type := q]> m)
  | _ => (None, m)
  end.

Definition pop_oldest (type : string) : M (option Request) :=
  locked_take (table_pop type) option_list.

(** Modelled from the spec: section 4.2, on disconnection every pending
    request leaves the table. *)
Definition table_drain (m : gmap string (list Request))
  : list Request * gmap string (list Request) :=
  (all_requests m, ∅).

Definition drain : M (list Request) :=
  locked_take table_drain id.

(** Modelled from the spec: the Response of a lost connection. *)
Definition connection_lost : Response :=
  mkResponse false "connection lost".

(** Modelled from the spec: section 4.3, a request has expired when
    [now() - issuedAt >= timeout]; the clock counts nanoseconds, the timeout
    seconds. *)
Definition elapsed (now : Z) (r : Request) : Q :=
  ((now - ts r) # 1000000000)%Q.

Definition expired (now : Z) (r : Request) : bool :=
  Qle_bool (timeout r) (elapsed now r).

(** Modelled from the spec: section 4.3, one pass removes every expired
    request, whatever queue it is in, and keeps the order of the others. *)
Definition table_sweep (now : Z) (m : gmap string (list Request))
  : list Request * gmap string (list Request) :=
  (filter (fun r => expired now r = true) (all_requests m),
   filter (fun r => expired now r = false) <$> m).

Definition sweep_take : M (list Request) :=
  now <- steady_clock_now ;;
  locked_take (table_sweep now) id.

(** ** The driver with its activities, step by step *)

(** Modelled from the spec: the scheduling model of section 5.  Callers, the
    receive loop and the sweeper run in parallel and meet only at the table's
    guard and at each request's completion slot, so they are taken to move in
    turns: a turn is one section under the lock, or one completion outside
    it.  Between taking requests from the table and completing them an
    activity holds them in hand ([rx_hand], [wd_hand]), and turns of the
    others may come in between.  [completed] records who completed which
    handle, [faults] counts completions that met a satisfied promise. *)
Record Sys := mkSys {
  world : World;
  rx_hand : list (handle * option Response);
  wd_hand : list (handle * option Response);
  rx_exit : bool;
  completed : list (handle * activity);
  faults : nat
}.

(** The turns: a caller's command, the passing of time, the loop reading a
    line, the loop completing a request it holds, a pass of the sweeper, the
    sweeper completing a request it holds. *)
Inductive label :=
| Issue (c : command) (timeout : option Q)
| Elapse (d : N)
| Receive (i : inbound)
| RxNotify
| Sweep
| WdNotify.

Definition with_world (w : World) (s : Sys) : Sys :=
  mkSys w (rx_hand s) (wd_hand s) (rx_exit s) (completed s) (faults s).

(** The receive loop is at its read: its thread runs, it has not exited and
    it holds nothing in hand. *)
Definition rx_reading (s : Sys) : bool :=
  match poll_thread_ (this (world s)), rx_exit s, rx_hand s with
  | Some PollLoop, false, [] => true
  | _, _, _ => false
  end.

(** The sweeper is due for a pass. *)
Definition wd_idle (s : Sys) : bool :=
  match watchdog_thread_ (this (world s)), wd_hand s with
  | Some Watchdog, [] => true
  | _, _ => false
  end.

(** A caller's turn: one public command. *)
Definition step_issue (c : command) (timeout : option Q) (s : Sys) : Sys :=
  match invoke c timeout (world s) with
  | Done _ w' => with_world w' s
  | Blocked => s
  end.

(** Time passes. *)
Definition step_elapse (d : N) (s : Sys) : Sys :=
  with_world (set_clock (steady_clock (world s) + Z.of_N d) (world s)) s.

(** Modelled from the spec: section 4.2, the loop's handling of one line up
    to the release of the lock.  A reply pops the oldest request of its
    type (none: the reply is discarded); a report goes to its observer and
    an unrecognised line to the log, neither touching the table; on
    disconnection the loop takes every pending request to fail it, and
    exits. *)
Definition step_receive (i : inbound) (s : Sys) : Sys :=
  if rx_reading s then
    match i with
    | Line (CommandReply type resp) =>
        match pop_oldest type (world s) with
        | Done (Some r) w' =>
            mkSys w' [(promise r, Some resp)] (wd_hand s) (rx_exit s)
                  (completed s) (faults s)
        | Done None w' => with_world w' s
        | Blocked => s
        end
    | Line _ => s
    | Disconnected =>
        match drain (world s) with
        | Done rs w' =>
            mkSys w' ((fun r => (promise r, Some connection_lost)) <$> rs)
                  (wd_hand s) true (completed s) (faults s)
        | Blocked => s
        end
    end
  else s.

(** Modelled from the spec: section 4.3, a pass up to the release of the
    lock. *)
Definition step_sweep (s : Sys) : Sys :=
  if wd_idle s then
    match sweep_take (world s) with
    | Done rs w' =>
        mkSys w' (rx_hand s) ((fun r => (promise r, None)) <$> rs)
              (rx_exit s) (completed s) (faults s)
    | Blocked => s
    end
  else s.

(** Modelled from the spec: "set its completion result and unblock its
    waiter outside the lock", one request at a time. *)
Definition notify (a : activity) (p : handle) (v : option Response)
    (s : Sys) : World * list (handle * activity) * nat :=
  match set_value p v (world s) with
  | Done true w' => (w', completed s ++ [(p, a)], faults s)
  | Done false w' => (w', completed s, S (faults s))
  | Blocked => (world s, completed s, faults s)
  end.

Definition step_rx_notify (s : Sys) : Sys :=
  match rx_hand s with
  | (p, v) :: rest =>
      let '(w', c', f') := notify PollLoop p v s in
      mkSys w' rest (wd_hand s) (rx_exit s) c' f'
  | [] => s
  end.

Definition step_wd_notify (s : Sys) : Sys :=
  match wd_hand s with
  | (p, v) :: rest =>
      let '(w', c', f') := notify Watchdog p v s in
      mkSys w' (rx_hand s) rest (rx_exit s) c' f'
  | [] => s
  end.

Definition step (l : label) (s : Sys) : Sys :=
  match l with
  | Issue c timeout => step_issue c timeout s
  | Elapse d => step_elapse d s
  | Receive i => step_receive i s
  | RxNotify => step_rx_notify s
  | Sweep => step_sweep s
  | WdNotify => step_wd_notify s
  end.

Definition exec (ls : list label) (s : Sys) : Sys :=
  foldl (fun s l => step l s) s ls.

(** The system around a driver that was just constructed. *)
Definition boot (clock : Z) (up : bool) (d : DvlA50Driver) : Sys :=
  mkSys (mkWorld clock [] up [] d []) [] [] false [] 0.

(** Modelled from the spec: the driver the specification describes, whose
    receive loop and sweeper run (section 4.2: "runs continuously on a
    dedicated scheduling context"; section 4.3: "for the lifetime of the
    driver").  The source's constructor, [DvlA50Driver_ctor], starts
    neither; [started] only serves to show, beside a run of the source, what
    the specification's activities would have done. *)
Definition started (d : DvlA50Driver) : DvlA50Driver :=
  mkDriver (Some PollLoop) (Some Watchdog) (responses_ d) (responses_mutex_ d).

(** The requests an activity or the table still holds. *)
Definition pending (s : Sys) : list handle :=
  (promise <$> all_requests (responses_ (this (world s))))
    ++ (fst <$> rx_hand s) ++ (fst <$> wd_hand s).

(** ** Observations used in the statements *)

(** The timeout of the request a call leaves at the back of the queue of
    [type]. *)
Definition enqueued_timeout (call : M handle) (type : string) (w : World)
  : option Q :=
  match call w with
  | Done _ w' => timeout <$> last (queue_of (responses_ (this w')) type)
  | Blocked => None
  end.

(** The character [c] occurs in [s]. *)
Fixpoint has_char (c : ascii) (s : string) : bool :=
  match s with
  | EmptyString => false
  | String a s' => Ascii.eqb a c || has_char c s'
  end.

(** The text [key] occurs somewhere in [s]. *)
Fixpoint occurs (key s : string) : bool :=
  String.prefix key s ||
  match s with
  | EmptyString => false
  | String _ s' => occurs key s'
  end.

(** The payload carries the JSON key ["parameters"]. *)
Definition has_parameters_key (payload : string) : bool :=
  occurs (quoted "parameters") payload.

(** The characters of [{"command": "set_config",]. *)
Definition set_config_head : list ascii :=
  list_ascii_of_string
    ("{" +:+ quoted "command" +:+ ": " +:+ quoted "set_config" +:+ ",").

(** What a table access takes and what it leaves make up the table. *)
Definition conserves {A}
    (f : gmap string (list Request) -> A * gmap string (list Request))
    (taken : A -> list Request) : Prop :=
  forall m, all_requests m ≡ₚ taken (f m).1 ++ all_requests (f m).2.

(** ** The invariant of the correlation

    The handles still pending (in the table or in an activity's hand) and
    the handles completed are all different; a pending handle is not ready,
    a completed one holds a value, every handle is one or the other, and no
    completion has failed. *)
Record inv (s : Sys) : Prop := mkInv {
  inv_free : responses_mutex_ (this (world s)) = false;
  inv_nodup : NoDup (pending s ++ (fst <$> completed s));
  inv_pending : forall p, p ∈ pending s -> shared (world s) !! p = Some NotReady;
  inv_completed : forall p, p ∈ (fst <$> completed s) ->
                            exists v, shared (world s) !! p = Some (HasValue v);
  inv_cover : forall p, (p < length (shared (world s)))%nat ->
                        p ∈ pending s ++ (fst <$> completed s);
  inv_faults : faults s = 0%nat
}.

(** The driver as the source constructs it: no activity runs, and so no
    activity holds or has completed anything. *)
Definition asleep (s : Sys) : Prop :=
  poll_thread_ (this (world s)) = None /\
  watchdog_thread_ (this (world s)) = None /\
  rx_hand s = [] /\ wd_hand s = [] /\ completed s = [].

(** What abandoning makes of a shared state. *)
Definition broken (o : option shared_state) : option shared_state :=
  match o with
  | Some NotReady => Some BrokenPromise
  | _ => o
  end.

(** ** Runs of the driver as the source constructs it *)

(** The commands issued in a schedule. *)
Definition issued (ls : list label) : list (command * option Q) :=
  omap (fun l => match l with Issue c t => Some (c, t) | _ => None end) ls.

(** The timeouts passed, in call order, by the calls of a schedule whose
    requests go to the queue of [type]. *)
Definition issued_timeouts (type : string) (ls : list label) : list Q :=
  (fun ct => timeout_arg ct.2)
    <$> filter (fun ct => command_type ct.1 = type) (issued ls).

(** The keys the four public commands pass to [send_request]. *)
Definition known_types : list string :=
  ["calibrate_gyro"; "trigger_ping"; "reset_dead_reckoning"; "set_config"].

(** [r1] was queued before [r2]: its time stamp is not later and its
    promise was made earlier. *)
Definition issued_before (r1 r2 : Request) : Prop :=
  ts r1 <= ts r2 /\ (promise r1 < promise r2)%nat.

(** Whether the mutex is held after the events of a trace. *)
Fixpoint held_after (held : bool) (t : list event) : bool :=
  match t with
  | [] => held
  | EvLock :: t' => held_after true t'
  | EvUnlock :: t' => held_after false t'
  | _ :: t' => held_after held t'
  end.

(** The only events [send_request] records. *)
Definition lock_push_unlock (e : event) : bool :=
  match e with
  | EvLock | EvUnlock | EvPush _ _ => true
  | _ => false
  end.

(** What every run of the driver as constructed keeps: the keys of the
    table are keys of the public commands and no queue is empty; every queue
    is in issue order; every time stamp lies between the clock at
    construction and the clock now, and every promise is in the store; the
    trace is made of guarded pushes only and leaves the mutex free; nothing
    is on the wire. *)
Record code_inv (clock0 : Z) (s : Sys) : Prop := mkCodeInv {
  ci_clock : clock0 <= steady_clock (world s);
  ci_keys : forall k q, responses_ (this (world s)) !! k = Some q ->
                        k ∈ known_types /\ q ≠ [];
  ci_order : forall k q, responses_ (this (world s)) !! k = Some q ->
                         StronglySorted issued_before q;
  ci_bounds : forall k q r, responses_ (this (world s)) !! k = Some q -> r ∈ q ->
                            clock0 <= ts r <= steady_clock (world s) /\
                            (promise r < length (shared (world s)))%nat;
  ci_guarded : table_guarded false (trace (world s)) = true;
  ci_released : held_after false (trace (world s)) = false;
  ci_events : forallb lock_push_unlock (trace (world s)) = true;
  ci_wire : wire (world s) = []
}.

(** ** Callers that overlap *)

(** [send_request] in its two halves: what runs before the scope of the
    [lock_guard] (the promise, its future, the time stamp, the request), and
    the scope itself with the return.  A second caller may run between the
    two. *)
Definition send_request_stamp (timeout : Q) : M Request :=
  promise <- make_promise ;;
  future <- get_future promise ;;
  now <- steady_clock_now ;;
  ret (mkRequest now timeout promise).

Definition send_request_queue (type : string) (request : Request) : M handle :=
  lock_guard (push type request) ;;;
  ret (promise request).

(** The steady clock advances by [d] ticks. *)
Definition tick (d : N) : M unit :=
  fun w => Done tt (set_clock (steady_clock w + Z.of_N d) w).

(** Caller A stamps its request, [d] ticks later caller B stamps and queues
    its own, and only then A queues. *)
Definition overlapping_calls (type : string) (tA tB : Q) (d : N)
  : M (Request * Request) :=
  rA <- send_request_stamp tA ;;
  tick d ;;;
  rB <- send_request_stamp tB ;;
  send_request_queue type rB ;;;
  send_request_queue type rA ;;;
  ret (rA, rB).

Lemma send_request_done type command timeout w :
  responses_mutex_ (this w) = false ->
  send_request type command timeout w
  = Done (length (shared w)) (queued_world type timeout w).
Proof.
  intros Hfree. destruct w as [clk sh up wr [pt wt m mx] tr]; simpl in *.
  subst mx. unfold send_request, bind, lock_guard, bind, lock; simpl.
  unfold queued_world, record, set_this; simpl.
  by rewrite <- !app_assoc.
Qed.

Lemma send_request_blocked type command timeout w :
  responses_mutex_ (this w) = true ->
  send_request type command timeout w = Blocked.
Proof.
  intros Hheld. unfold send_request, bind, lock_guard, bind, lock; simpl.
  by rewrite Hheld.
Qed.

Lemma invoke_send_request c timeout :
  invoke c timeout
  = send_request (command_type c) (command_payload c) (timeout_arg timeout).
Proof. by destruct c. Qed.

Lemma invoke_done c timeout w :
  responses_mutex_ (this w) = false ->
  invoke c timeout w
  = Done (length (shared w))
         (queued_world (command_type c) (timeout_arg timeout) w).
Proof. intros Hfree. rewrite invoke_send_request. by apply send_request_done. Qed.

(** ** The table after [send_request] *)

Lemma queued_world_lookup type timeout w :
  responses_ (this (queued_world type timeout w)) !! type
  = Some (queue_of (responses_ (this w)) type
            ++ [mkRequest (steady_clock w) timeout (length (shared w))]).
Proof. unfold queued_world; simpl. by rewrite lookup_insert_eq. Qed.

Lemma queued_world_lookup_ne type timeout w k :
  k ≠ type ->
  responses_ (this (queued_world type timeout w)) !! k
  = responses_ (this w) !! k.
Proof. intros Hne. unfold queued_world; simpl. by rewrite lookup_insert_ne. Qed.

Lemma queue_of_queued_world type timeout w :
  queue_of (responses_ (this (queued_world type timeout w))) type
  = queue_of (responses_ (this w)) type
      ++ [mkRequest (steady_clock w) timeout (length (shared w))].
Proof. unfold queue_of at 1. by rewrite queued_world_lookup. Qed.

Lemma queue_of_queued_world_ne type timeout w k :
  k ≠ type ->
  queue_of (responses_ (this (queued_world type timeout w))) k
  = queue_of (responses_ (this w)) k.
Proof. intros Hne. unfold queue_of. by rewrite queued_world_lookup_ne. Qed.

(** The requests of a table, up to the order of the keys. *)
Lemma all_requests_split (m : gmap string (list Request)) k :
  all_requests m ≡ₚ queue_of m k ++ all_requests (delete k m).
Proof.
  unfold all_requests, queue_of.
  destruct (m !! k) as [q|] eqn:Hk; simpl.
  - rewrite <- (map_to_list_delete m k q Hk). by simpl.
  - by rewrite delete_id.
Qed.

Lemma all_requests_insert (m : gmap string (list Request)) k q :
  all_requests (<[k := q]> m) ≡ₚ q ++ all_requests (delete k m).
Proof.
  rewrite (all_requests_split (<[k := q]> m) k).
  unfold queue_of. rewrite lookup_insert_eq; simpl.
  by rewrite delete_insert_eq.
Qed.

Lemma all_requests_push (m : gmap string (list Request)) k r :
  all_requests (<[k := queue_of m k ++ [r]]> m) ≡ₚ r :: all_requests m.
Proof.
  rewrite all_requests_insert, (all_requests_split m k).
  rewrite <- app_assoc; simpl. symmetry. apply Permutation_middle.
Qed.

Lemma all_requests_empty : all_requests (∅ : gmap string (list Request)) = [].
Proof. unfold all_requests. by rewrite map_to_list_empty. Qed.

Lemma elem_of_all_requests (m : gmap string (list Request)) r :
  r ∈ all_requests m <-> exists k q, m !! k = Some q /\ r ∈ q.
Proof.
  unfold all_requests. rewrite list_elem_of_In, in_concat. split.
  - intros (q & Hq & Hr). apply list_elem_of_In in Hq, Hr.
    apply list_elem_of_fmap in Hq as ([k q'] & -> & Hkq).
    apply elem_of_map_to_list in Hkq. by exists k, q'.
  - intros (k & q & Hk & Hr). exists q. rewrite <- !list_elem_of_In.
    split; [|done]. apply list_elem_of_fmap. exists (k, q). split; [done|].
    by apply elem_of_map_to_list.
Qed.

(** Runs a member function on a world given field by field. *)
Ltac run_member :=
  cbv [issueCommand send_request bind lock_guard lock unlock send
       make_promise get_future steady_clock_now ret push set_value
       queued_world record set_this set_wire set_shared set_mutex
       set_responses this responses_mutex_ link_up shared steady_clock wire
       trace poll_thread_ watchdog_thread_ responses_];
  rewrite <- ?app_assoc; cbn [app].

(** ** C10 *)



(** ** C8 *)

Lemma enqueued_timeout_invoke c timeout w :
  responses_mutex_ (this w) = false ->
  enqueued_timeout (invoke c timeout) (command_type c) w
  = Some (timeout_arg timeout).
Proof.
  intros Hfree. unfold enqueued_timeout. rewrite invoke_done by done.
  rewrite queue_of_queued_world. by rewrite last_snoc.
Qed.

(** C8: each of the four public commands, called without a timeout
    argument, queues its request with a timeout of 3 seconds. *)
Theorem default_timeout_three_seconds w :
  responses_mutex_ (this w) = false ->
  enqueued_timeout (calibrate_gyro None) "calibrate_gyro" w = Some (3 # 1)%Q /\
  enqueued_timeout (trigger_ping None) "trigger_ping" w = Some (3 # 1)%Q /\
  enqueued_timeout (reset_dead_reckoning None) "reset_dead_reckoning" w
  = Some (3 # 1)%Q /\
  forall config,
    enqueued_timeout (set_config config None) "set_config" w = Some (3 # 1)%Q.
Proof.
  intros Hfree. repeat split.
  - exact (enqueued_timeout_invoke CalibrateGyro None w Hfree).
  - exact (enqueued_timeout_invoke TriggerPing None w Hfree).
  - exact (enqueued_timeout_invoke ResetDeadReckoning None w Hfree).
  - intros config. exact (enqueued_timeout_invoke (SetConfig config) None w Hfree).
Qed.

Lemma default_timeout_three_seconds_witness :
  enqueued_timeout (calibrate_gyro None) "calibrate_gyro"
    (world (boot 0 true (DvlA50Driver_ctor "192.168.194.95" 16171)))
  = Some (3 # 1)%Q.
Proof.
  exact (proj1 (default_timeout_three_seconds
                  (world (boot 0 true (DvlA50Driver_ctor "192.168.194.95" 16171)))
                  eq_refl)).
Defined.

(** ** C7 *)

Lemma list_ascii_of_string_app s1 s2 :
  list_ascii_of_string (s1 +:+ s2)
  = list_ascii_of_string s1 ++ list_ascii_of_string s2.
Proof. induction s1 as [|c s1 IH]; simpl; [done|]. by rewrite IH. Qed.

Lemma prefix_empty s : String.prefix EmptyString s = true.
Proof. by destruct s. Qed.

(** A key without a closing brace starts in [s] wherever it starts in
    [s] followed by a closing brace. *)
Lemma prefix_before_brace a key s :
  has_char "}" (String a key) = false ->
  String.prefix (String a key) (s +:+ "}") = String.prefix (String a key) s.
Proof.
  revert a s. induction key as [|a' key IH]; intros a s Hkey;
    simpl in Hkey; apply orb_false_iff in Hkey as [Ha Hkey];
    apply Ascii.eqb_neq in Ha.
  - destruct s as [|b s]; simpl.
    + destruct (ascii_dec a "}"); [contradiction|done].
    + destruct (ascii_dec a b); [|done]. by rewrite !prefix_empty.
  - destruct s as [|b s].
    + simpl. destruct (ascii_dec a "}"); [contradiction|done].
    + change (String.prefix (String a (String a' key)) (String b s +:+ "}"))
        with (if ascii_dec a b then String.prefix (String a' key) (s +:+ "}")
              else false).
      change (String.prefix (String a (String a' key)) (String b s))
        with (if ascii_dec a b then String.prefix (String a' key) s else false).
      destruct (ascii_dec a b); [|done]. by apply IH.
Qed.

Lemma occurs_before_brace a key s :
  has_char "}" (String a key) = false ->
  occurs (String a key) (s +:+ "}") = occurs (String a key) s.
Proof.
  intros Hkey. induction s as [|b s IH].
  - simpl in Hkey. apply orb_false_iff in Hkey as [Ha _].
    apply Ascii.eqb_neq in Ha. simpl.
    destruct (ascii_dec a "}"); [contradiction|done].
  - change (occurs (String a key) (String b s +:+ "}"))
      with (String.prefix (String a key) (String b s +:+ "}")
            || occurs (String a key) (s +:+ "}")).
    change (occurs (String a key) (String b s))
      with (String.prefix (String a key) (String b s)
            || occurs (String a key) s).
    by rewrite IH, (prefix_before_brace a key (String b s)).
Qed.

Lemma occurs_in_set_config_payload config :
  has_parameters_key (set_config_payload config) = has_parameters_key config.
Proof.
  unfold has_parameters_key, set_config_payload.
  transitivity (occurs (quoted "parameters") (config +:+ "}")).
  - reflexivity.
  - by apply occurs_before_brace.
Qed.

(** C7, as the code has it: [set_config] validates nothing and adds no
    ["parameters"] key of its own.  For every config string the payload is
    the text [{"command": "set_config",] followed by the caller's fragment
    and a closing brace; it carries a ["parameters"] key exactly when the
    caller's fragment does; and whatever the fragment, the request is queued
    under ["set_config"] with the timeout that was passed. *)
Theorem set_config_payload_shape config :
  list_ascii_of_string (set_config_payload config)
  = set_config_head ++ list_ascii_of_string config ++ ["}"%char] /\
  has_parameters_key (set_config_payload config) = has_parameters_key config /\
  forall timeout w,
    responses_mutex_ (this w) = false ->
    set_config config timeout w
    = Done (length (shared w))
           (queued_world "set_config" (timeout_arg timeout) w).
Proof.
  split; [|split].
  - unfold set_config_payload, set_config_head.
    by rewrite !list_ascii_of_string_app.
  - apply occurs_in_set_config_payload.
  - intros timeout w Hfree. unfold set_config.
    exact (send_request_done _ _ _ w Hfree).
Qed.

Lemma set_config_payload_shape_witness :
  set_config (quoted "parameters" +:+ ": {}") None
    (world (boot 0 true (DvlA50Driver_ctor "192.168.194.95" 16171)))
  = Done 0%nat
      (queued_world "set_config" (seconds 3)
         (world (boot 0 true (DvlA50Driver_ctor "192.168.194.95" 16171)))).
Proof.
  exact (proj2 (proj2 (set_config_payload_shape (quoted "parameters" +:+ ": {}")))
           None
           (world (boot 0 true (DvlA50Driver_ctor "192.168.194.95" 16171)))
           eq_refl).
Defined.

(** C7 as stated fails: for the fragment ["speed_of_sound": 1480] the
    payload is [{"command": "set_config","speed_of_sound": 1480}], which has
    no ["parameters"] key for the fragment to be under. *)
Lemma set_config_without_parameters_key :
  set_config_payload (quoted "speed_of_sound" +:+ ": 1480")
  = "{" +:+ quoted "command" +:+ ": " +:+ quoted "set_config" +:+ ","
        +:+ quoted "speed_of_sound" +:+ ": 1480}" /\
  has_parameters_key
    (set_config_payload (quoted "speed_of_sound" +:+ ": 1480")) = false.
Proof. split; reflexivity. Qed.

(** ** C1: the message is never sent *)

Lemma lookup_fresh (sh : list shared_state) :
  (sh ++ [NotReady]) !! length sh = Some NotReady.
Proof. by apply list_lookup_middle. Qed.

Lemma issueCommand_link_up type payload timeout w :
  responses_mutex_ (this w) = false ->
  link_up w = true ->
  issueCommand type payload timeout w
  = Done (length (shared w))
         (record (EvSend payload)
            (set_wire (wire w ++ [payload]) (queued_world type timeout w))).
Proof.
  intros Hfree Hup. destruct w as [clk sh up wr [pt wt m mx] tr].
  cbn [this responses_mutex_ link_up] in *. subst. run_member. reflexivity.
Qed.

(** C1, on the code: [send_request] reads the clock, queues the request
    under the lock and returns the handle, and hands nothing to the
    transport: the wire is as it was and the call records no send, where the
    dispatcher of the specification puts the payload on the wire. *)
Theorem send_request_sends_nothing type command timeout w :
  responses_mutex_ (this w) = false ->
  link_up w = true ->
  exists w' w2,
    send_request type command timeout w = Done (length (shared w)) w' /\
    wire w' = wire w /\
    trace w' = trace w ++ [EvLock;
                           EvPush type (mkRequest (steady_clock w) timeout
                                          (length (shared w)));
                           EvUnlock] /\
    issueCommand type command timeout w = Done (length (shared w)) w2 /\
    wire w2 = wire w ++ [command].
Proof.
  intros Hfree Hup. eexists _, _.
  split; [by apply send_request_done|].
  split; [done|]. split; [done|].
  split; [by apply issueCommand_link_up|done].
Qed.

Lemma send_request_sends_nothing_witness :
  exists w' w2,
    calibrate_gyro None
      (world (boot 0 true (DvlA50Driver_ctor "192.168.194.95" 16171)))
    = Done 0%nat w' /\
    wire w' = [] /\
    issueCommand "calibrate_gyro" (command_json "calibrate_gyro") (seconds 3)
      (world (boot 0 true (DvlA50Driver_ctor "192.168.194.95" 16171)))
    = Done 0%nat w2 /\
    wire w2 = [command_json "calibrate_gyro"].
Proof.
  destruct (send_request_sends_nothing "calibrate_gyro"
              (command_json "calibrate_gyro") (seconds 3)
              (world (boot 0 true (DvlA50Driver_ctor "192.168.194.95" 16171)))
              eq_refl eq_refl) as (w' & w2 & H1 & H2 & _ & H3 & H4).
  exists w', w2. split; [exact H1|]. split; [exact H2|].
  split; [exact H3 | exact H4].
Defined.

(** ** Taking requests out of the table *)

Lemma locked_take_done {A}
    (f : gmap string (list Request) -> A * gmap string (list Request))
    (taken : A -> list Request) w :
  responses_mutex_ (this w) = false ->
  locked_take f taken w
  = Done (f (responses_ (this w))).1
      (mkWorld (steady_clock w) (shared w) (link_up w) (wire w)
         (mkDriver (poll_thread_ (this w)) (watchdog_thread_ (this w))
                   (f (responses_ (this w))).2 false)
         (trace w ++ [EvLock; EvTake (taken (f (responses_ (this w))).1);
                      EvUnlock])).
Proof.
  intros Hfree. destruct w as [clk sh up wr [pt wt m mx] tr]; simpl in *.
  subst mx. unfold locked_take, lock_guard, bind, lock, table_update; simpl.
  destruct (f m) as [a m']; simpl.
  unfold record, set_this; simpl. by rewrite <- !app_assoc.
Qed.

Lemma table_pop_conserves type : conserves (table_pop type) option_list.
Proof.
  intros m. unfold table_pop.
  destruct (m !! type) as [[|r q]|] eqn:Hq; simpl; try done.
  rewrite all_requests_insert, (all_requests_split m type).
  unfold queue_of. by rewrite Hq.
Qed.

Lemma table_drain_conserves : conserves table_drain id.
Proof.
  intros m. unfold table_drain; simpl.
  by rewrite all_requests_empty, app_nil_r.
Qed.

Lemma filter_concat {A} (P : A -> Prop) `{!forall x, Decision (P x)}
    (ls : list (list A)) :
  concat (filter P <$> ls) = filter P (concat ls).
Proof.
  induction ls as [|l ls IH]; [done|].
  rewrite fmap_cons. cbn [concat]. by rewrite filter_app, IH.
Qed.

Lemma filter_bool_split {A} (b : A -> bool) (l : list A) :
  l ≡ₚ filter (fun x => b x = true) l ++ filter (fun x => b x = false) l.
Proof.
  induction l as [|x l IH]; [done|].
  rewrite !filter_cons. destruct (b x) eqn:Hb.
  - rewrite decide_True, decide_False by done. simpl. by f_equiv.
  - rewrite decide_False, decide_True by done.
    rewrite <- Permutation_middle. by f_equiv.
Qed.

Lemma all_requests_filter (P : Request -> Prop) `{!forall x, Decision (P x)}
    (m : gmap string (list Request)) :
  all_requests (filter P <$> m) ≡ₚ filter P (all_requests m).
Proof.
  unfold all_requests. rewrite map_to_list_fmap.
  rewrite <- list_fmap_compose.
  rewrite <- filter_concat. rewrite <- list_fmap_compose.
  apply reflexive_eq. by f_equal.
Qed.

Lemma table_sweep_conserves now : conserves (table_sweep now) id.
Proof.
  intros m. unfold table_sweep; simpl.
  rewrite all_requests_filter. apply filter_bool_split.
Qed.

(** ** The invariant is kept by every turn *)

Lemma pending_lt s p :
  inv s -> p ∈ pending s ++ (fst <$> completed s) ->
  (p < length (shared (world s)))%nat.
Proof.
  intros Hinv [Hp|Hp]%elem_of_app.
  - apply inv_pending in Hp; [|done]. by apply lookup_lt_Some in Hp.
  - apply inv_completed in Hp as [v Hp]; [|done]. by apply lookup_lt_Some in Hp.
Qed.

Lemma inv_boot clock up d :
  responses_ d = ∅ -> responses_mutex_ d = false -> inv (boot clock up d).
Proof.
  intros Hm Hfree. constructor; simpl; try done.
  - unfold pending; simpl. rewrite Hm, all_requests_empty. simpl. constructor.
  - unfold pending; simpl. rewrite Hm, all_requests_empty. simpl.
    intros p Hp. by apply elem_of_nil in Hp.
  - intros p Hp. by apply elem_of_nil in Hp.
  - intros p Hp. lia.
Qed.

(** A turn that leaves the store and the completions alone and only moves
    pending handles around. *)
Lemma inv_same_store s s' :
  inv s ->
  responses_mutex_ (this (world s')) = false ->
  shared (world s') = shared (world s) ->
  completed s' = completed s ->
  faults s' = faults s ->
  pending s' ≡ₚ pending s ->
  inv s'.
Proof.
  intros [Hfree Hnd Hpend Hcomp Hcov Hf] Hfree' Hsh Hc Hf' Hperm.
  constructor.
  - done.
  - by rewrite Hc, Hperm.
  - intros p Hp. rewrite Hsh. apply Hpend. by rewrite <- Hperm.
  - intros p Hp. rewrite Hsh. apply Hcomp. by rewrite <- Hc.
  - intros p Hp. rewrite Hc, Hperm. apply Hcov. by rewrite <- Hsh.
  - congruence.
Qed.

(** A turn that completes one pending handle. *)
Lemma inv_complete s s' p v a :
  inv s ->
  pending s ≡ₚ p :: pending s' ->
  responses_mutex_ (this (world s')) = false ->
  shared (world s') = <[p := HasValue v]> (shared (world s)) ->
  completed s' = completed s ++ [(p, a)] ->
  faults s' = faults s ->
  inv s'.
Proof.
  intros Hinv Hperm Hfree' Hsh Hc Hf'.
  pose proof Hinv as [Hfree Hnd Hpend Hcomp Hcov Hf].
  assert (Hall : pending s' ++ (fst <$> completed s')
                 ≡ₚ pending s ++ (fst <$> completed s)).
  { rewrite Hc, Hperm, fmap_app; simpl.
    rewrite (Permutation_app_comm (fst <$> completed s) [p]); simpl.
    by rewrite <- Permutation_middle. }
  assert (Hp : p ∈ pending s) by (rewrite Hperm; left).
  assert (Hlt : (p < length (shared (world s)))%nat).
  { apply pending_lt; [done|]. apply elem_of_app. by left. }
  assert (Hnd2 : NoDup (p :: pending s' ++ (fst <$> completed s))).
  { rewrite Hperm in Hnd. exact Hnd. }
  apply NoDup_cons in Hnd2 as [Hnotin Hnd'].
  constructor.
  - done.
  - by rewrite Hall.
  - intros q Hq. rewrite Hsh, list_lookup_insert_ne.
    + apply Hpend. rewrite Hperm. by right.
    + intros ->. apply Hnotin, elem_of_app. by left.
  - intros q Hq. rewrite Hc, fmap_app in Hq. simpl in Hq. rewrite Hsh.
    apply elem_of_app in Hq as [Hq|Hq].
    + rewrite list_lookup_insert_ne; [by apply Hcomp|].
      intros ->. apply Hnotin, elem_of_app. by right.
    + apply list_elem_of_singleton in Hq as ->. exists v.
      by apply list_lookup_insert_eq.
  - intros q Hq. rewrite Hall. apply Hcov.
    by rewrite Hsh, length_insert in Hq.
  - congruence.
Qed.

Lemma pending_with_world w s :
  pending (with_world w s)
  = (promise <$> all_requests (responses_ (this w)))
      ++ (fst <$> rx_hand s) ++ (fst <$> wd_hand s).
Proof. done. Qed.

Lemma inv_step_issue c timeout s : inv s -> inv (step_issue c timeout s).
Proof.
  intros Hinv. pose proof Hinv as [Hfree Hnd Hpend Hcomp Hcov Hf].
  unfold step_issue. rewrite invoke_done by done.
  set (n := length (shared (world s))).
  assert (Hperm : pending (with_world
                    (queued_world (command_type c) (timeout_arg timeout)
                       (world s)) s)
                  ≡ₚ n :: pending s).
  { rewrite pending_with_world. unfold queued_world; simpl.
    rewrite all_requests_push. by simpl. }
  assert (Hfresh : n ∉ pending s ++ (fst <$> completed s)).
  { intros Hn. apply pending_lt in Hn; [|done]. unfold n in Hn. lia. }
  constructor; simpl; try done.
  - rewrite Hperm; simpl. by constructor.
  - intros p Hp. rewrite Hperm in Hp. apply elem_of_cons in Hp as [->|Hp].
    + apply lookup_fresh.
    + by apply lookup_app_l_Some, Hpend.
  - intros p Hp. destruct (Hcomp p Hp) as [v Hv]. exists v.
    by apply lookup_app_l_Some.
  - intros p Hp. rewrite Hperm. simpl. rewrite length_app in Hp; simpl in Hp.
    destruct (decide (p = n)) as [->|Hne]; [left|].
    right. apply Hcov. unfold n in Hne. lia.
Qed.

Lemma inv_step_elapse d s : inv s -> inv (step_elapse d s).
Proof.
  intros Hinv. apply (inv_same_store s); try done.
  simpl. by apply inv_free.
Qed.

Lemma rx_reading_true s :
  rx_reading s = true ->
  poll_thread_ (this (world s)) = Some PollLoop /\
  rx_exit s = false /\ rx_hand s = [].
Proof.
  unfold rx_reading.
  by destruct (poll_thread_ (this (world s))) as [[]|], (rx_exit s), (rx_hand s).
Qed.

Lemma wd_idle_true s :
  wd_idle s = true ->
  watchdog_thread_ (this (world s)) = Some Watchdog /\ wd_hand s = [].
Proof.
  unfold wd_idle.
  by destruct (watchdog_thread_ (this (world s))) as [[]|], (wd_hand s).
Qed.

Lemma fmap_fst_tagged (v : option Response) (rs : list Request) :
  fst <$> ((fun r => (promise r, v)) <$> rs) = promise <$> rs.
Proof. rewrite <- list_fmap_compose. by apply list_fmap_ext. Qed.

Lemma inv_step_receive i s : inv s -> inv (step_receive i s).
Proof.
  intros Hinv. pose proof (inv_free s Hinv) as Hfree.
  unfold step_receive. destruct (rx_reading s) eqn:Hread; [|done].
  apply rx_reading_true in Hread as (_ & _ & Hhand).
  destruct i as [[| |type resp|]|]; try done.
  - unfold pop_oldest. rewrite locked_take_done by done.
    pose proof (table_pop_conserves type (responses_ (this (world s)))) as Hcons.
    destruct (table_pop type (responses_ (this (world s)))) as [[r|] m'];
      simpl in *.
    + apply (inv_same_store s); try done.
      unfold pending; simpl. rewrite Hhand, Hcons; simpl.
      by rewrite <- Permutation_middle.
    + apply (inv_same_store s); try done.
      unfold pending; simpl. by rewrite Hcons.
  - unfold drain. rewrite locked_take_done by done.
    apply (inv_same_store s); try done.
    unfold pending; simpl.
    by rewrite all_requests_empty, Hhand, fmap_fst_tagged.
Qed.

Lemma sweep_take_unfold w :
  sweep_take w = locked_take (table_sweep (steady_clock w)) id w.
Proof. done. Qed.

Lemma inv_step_sweep s : inv s -> inv (step_sweep s).
Proof.
  intros Hinv. pose proof (inv_free s Hinv) as Hfree.
  unfold step_sweep. destruct (wd_idle s) eqn:Hidle; [|done].
  apply wd_idle_true in Hidle as (_ & Hhand).
  rewrite sweep_take_unfold, locked_take_done by done.
  pose proof (table_sweep_conserves (steady_clock (world s))
                (responses_ (this (world s)))) as Hcons.
  destruct (table_sweep (steady_clock (world s)) (responses_ (this (world s))))
    as [rs m']; simpl in *.
  apply (inv_same_store s); try done.
  unfold pending; simpl. rewrite Hhand, fmap_fst_tagged, Hcons, fmap_app; simpl.
  rewrite app_nil_r.
  rewrite (Permutation_app_comm (promise <$> rs)).
  rewrite <- !app_assoc. f_equiv. apply Permutation_app_comm.
Qed.

(** Completing a handle that is pending never fails. *)
Lemma notify_pending a p v s :
  inv s -> p ∈ pending s ->
  notify a p v s
  = (record (EvSetValue p v)
       (set_shared (<[p := HasValue v]> (shared (world s))) (world s)),
     completed s ++ [(p, a)], faults s).
Proof.
  intros Hinv Hp. unfold notify, set_value.
  by rewrite (inv_pending s Hinv p Hp).
Qed.

Lemma inv_step_rx_notify s : inv s -> inv (step_rx_notify s).
Proof.
  intros Hinv. unfold step_rx_notify.
  destruct (rx_hand s) as [|[p v] rest] eqn:Hhand; [done|].
  assert (Hp : p ∈ pending s).
  { unfold pending. rewrite Hhand. apply elem_of_app. right. simpl. left. }
  rewrite (notify_pending PollLoop p v s Hinv Hp).
  apply (inv_complete s _ p v PollLoop); try done.
  - unfold pending; simpl. rewrite Hhand; simpl.
    by rewrite <- Permutation_middle.
  - simpl. by apply inv_free.
Qed.

Lemma inv_step_wd_notify s : inv s -> inv (step_wd_notify s).
Proof.
  intros Hinv. unfold step_wd_notify.
  destruct (wd_hand s) as [|[p v] rest] eqn:Hhand; [done|].
  assert (Hp : p ∈ pending s).
  { unfold pending. rewrite Hhand. apply elem_of_app. right.
    apply elem_of_app. right. simpl. left. }
  rewrite (notify_pending Watchdog p v s Hinv Hp).
  apply (inv_complete s _ p v Watchdog); try done.
  - unfold pending; simpl. rewrite Hhand; simpl.
    rewrite (app_assoc _ (fst <$> rx_hand s)).
    rewrite <- Permutation_middle. by rewrite <- app_assoc.
  - simpl. by apply inv_free.
Qed.

Lemma inv_step l s : inv s -> inv (step l s).
Proof.
  destruct l; simpl.
  - apply inv_step_issue.
  - apply inv_step_elapse.
  - apply inv_step_receive.
  - apply inv_step_rx_notify.
  - apply inv_step_sweep.
  - apply inv_step_wd_notify.
Qed.

Lemma inv_exec ls s : inv s -> inv (exec ls s).
Proof.
  revert s. induction ls as [|l ls IH]; intros s Hinv; [done|].
  simpl. apply IH. by apply inv_step.
Qed.


(** ** Runs, turn by turn *)

Lemma exec_cons l ls s : exec (l :: ls) s = exec ls (step l s).
Proof. done. Qed.

Lemma issue_turn c timeout s :
  responses_mutex_ (this (world s)) = false ->
  step_issue c timeout s
  = with_world (queued_world (command_type c) (timeout_arg timeout) (world s)) s.
Proof. intros Hfree. unfold step_issue. by rewrite invoke_done. Qed.

(** ** C9 and C4: the driver as the source constructs it *)

Lemma asleep_step l s : inv s -> asleep s -> asleep (step l s).
Proof.
  intros Hinv (Hp & Hw & Hrx & Hwd & Hc).
  pose proof (inv_free s Hinv) as Hfree.
  destruct l as [c t|d|i| | |]; simpl.
  - rewrite issue_turn by done. by repeat split.
  - by repeat split.
  - unfold step_receive, rx_reading. rewrite Hp. by repeat split.
  - unfold step_rx_notify. rewrite Hrx. by repeat split.
  - unfold step_sweep, wd_idle. rewrite Hw. by repeat split.
  - unfold step_wd_notify. rewrite Hwd. by repeat split.
Qed.

Lemma asleep_exec ls s : inv s -> asleep s -> asleep (exec ls s).
Proof.
  revert s. induction ls as [|l ls IH]; intros s Hinv Hs; [done|].
  rewrite exec_cons. apply IH; [by apply inv_step | by apply asleep_step].
Qed.

Lemma abandon_lookup p (sh : list shared_state) q :
  abandon p sh !! q = if decide (q = p) then broken (sh !! p) else sh !! q.
Proof.
  unfold abandon. destruct (decide (q = p)) as [->|Hne].
  - destruct (sh !! p) as [[| |]|] eqn:Hp; simpl; rewrite ?Hp; try done.
    apply list_lookup_insert_eq. by apply lookup_lt_Some in Hp.
  - destruct (sh !! p) as [[| |]|]; try done.
    by apply list_lookup_insert_ne.
Qed.

Lemma broken_idem o : broken (broken o) = broken o.
Proof. by destruct o as [[| |]|]. Qed.

Lemma foldr_abandon_lookup (l : list nat) (sh : list shared_state) q :
  foldr abandon sh l !! q = if decide (q ∈ l) then broken (sh !! q) else sh !! q.
Proof.
  induction l as [|p l IH]; cbn [foldr].
  - case_decide as Hin; [by apply elem_of_nil in Hin|done].
  - rewrite abandon_lookup.
    destruct (decide (q = p)) as [->|Hne].
    + rewrite IH.
      destruct (decide (p ∈ p :: l)) as [_|Hnin]; [|exfalso; apply Hnin; left].
      destruct (decide (p ∈ l)); [apply broken_idem|done].
    + rewrite IH. destruct (decide (q ∈ l)) as [Hin|Hnin].
      * destruct (decide (q ∈ p :: l)) as [_|Hn]; [done|].
        exfalso. apply Hn. by right.
      * destruct (decide (q ∈ p :: l)) as [Hin|_]; [|done].
        apply elem_of_cons in Hin as [?|?]; done.
Qed.

Lemma foldr_abandon_length (l : list nat) (sh : list shared_state) :
  length (foldr abandon sh l) = length sh.
Proof.
  induction l as [|p l IH]; simpl; [done|].
  unfold abandon. destruct (_ !! p) as [[| |]|]; try done.
  by rewrite length_insert.
Qed.

(** C9, as the code has it: from the constructor on, whatever is called and
    whatever arrives, neither thread member ever holds an activity, nothing
    is completed, and the shared state behind every handle a command has
    returned is not ready; no code path stores a value in it.  The one code
    path that makes such a future ready is the destructor: destroying the
    driver destroys the queued promises, and each abandoned shared state
    becomes ready holding the broken-promise error, never a Response. *)
Theorem no_value_is_ever_assigned ip port clock up ls :
  let s := exec ls (boot clock up (DvlA50Driver_ctor ip port)) in
  poll_thread_ (this (world s)) = None /\
  watchdog_thread_ (this (world s)) = None /\
  completed s = [] /\
  length (DvlA50Driver_dtor (world s)) = length (shared (world s)) /\
  forall p, (p < length (shared (world s)))%nat ->
            shared (world s) !! p = Some NotReady /\
            DvlA50Driver_dtor (world s) !! p = Some BrokenPromise.
Proof.
  intros s.
  assert (Hinv : inv s) by (by apply inv_exec, inv_boot).
  assert (Hs : asleep s) by (by apply asleep_exec; [apply inv_boot|]).
  destruct Hs as (Hp & Hw & Hrx & Hwd & Hc).
  split; [done|]. split; [done|]. split; [done|].
  split; [apply foldr_abandon_length|].
  intros p Hlt.
  assert (Hin : p ∈ queued_promises (responses_ (this (world s)))).
  { pose proof (inv_cover s Hinv p Hlt) as Hcov.
    unfold pending in Hcov. rewrite Hrx, Hwd, Hc in Hcov. simpl in Hcov.
    by rewrite !app_nil_r in Hcov. }
  assert (Hnr : shared (world s) !! p = Some NotReady).
  { apply (inv_pending s Hinv). unfold pending. apply elem_of_app. by left. }
  split; [done|].
  unfold DvlA50Driver_dtor. rewrite foldr_abandon_lookup.
  rewrite decide_True by done. by rewrite Hnr.
Qed.

Lemma no_value_is_ever_assigned_witness :
  let s := exec [Issue CalibrateGyro None; Elapse 5000000000; Sweep; WdNotify;
                 Receive Disconnected; RxNotify]
             (boot 0 true (DvlA50Driver_ctor "192.168.194.95" 16171)) in
  shared (world s) !! 0%nat = Some NotReady /\
  DvlA50Driver_dtor (world s) !! 0%nat = Some BrokenPromise.
Proof.
  intros s.
  destruct (no_value_is_ever_assigned "192.168.194.95" 16171 0 true
              [Issue CalibrateGyro None; Elapse 5000000000; Sweep; WdNotify;
               Receive Disconnected; RxNotify])
    as (_ & _ & _ & _ & Hall).
  apply (Hall 0%nat). change (0 < 1)%nat. lia.
Defined.

(** C9 as stated fails on the destructor: after a call to [calibrate_gyro]
    the destruction of the driver leaves the returned future ready. *)
Lemma destructor_makes_future_ready :
  let s := exec [Issue CalibrateGyro None]
             (boot 0 true (DvlA50Driver_ctor "192.168.194.95" 16171)) in
  invoke CalibrateGyro None
    (world (boot 0 true (DvlA50Driver_ctor "192.168.194.95" 16171)))
  = Done 0%nat (world s) /\
  is_ready <$> (DvlA50Driver_dtor (world s) !! 0%nat) = Some true.
Proof. split; reflexivity. Qed.

Lemma step_shared_length l s :
  inv s ->
  (length (shared (world s)) <= length (shared (world (step l s))))%nat.
Proof.
  intros Hinv. pose proof (inv_free s Hinv) as Hfree.
  destruct l as [c t|d|i| | |]; simpl.
  - rewrite issue_turn by done. cbn [world with_world queued_world shared].
    rewrite length_app. lia.
  - done.
  - unfold step_receive. destruct (rx_reading s); [|done].
    destruct i as [[| |type resp|]|]; try done.
    + unfold pop_oldest. rewrite locked_take_done by done.
      by destruct (table_pop type (responses_ (this (world s)))) as [[r|] m'].
    + unfold drain. by rewrite locked_take_done.
  - unfold step_rx_notify. destruct (rx_hand s) as [|[q u] rest]; [done|].
    unfold notify, set_value.
    destruct (shared (world s) !! q) as [[| |]|]; simpl; try done.
    by rewrite length_insert.
  - unfold step_sweep. destruct (wd_idle s); [|done].
    rewrite sweep_take_unfold, locked_take_done by done.
    by destruct (table_sweep _ _).
  - unfold step_wd_notify. destruct (wd_hand s) as [|[q u] rest]; [done|].
    unfold notify, set_value.
    destruct (shared (world s) !! q) as [[| |]|]; simpl; try done.
    by rewrite length_insert.
Qed.

Lemma exec_shared_length ls s :
  inv s ->
  (length (shared (world s)) <= length (shared (world (exec ls s))))%nat.
Proof.
  revert s. induction ls as [|l ls IH]; intros s Hinv; [done|].
  rewrite exec_cons. etrans; [by apply (step_shared_length l)|].
  apply IH. by apply inv_step.
Qed.

(** C4, on the code: after [trigger_ping] with any timeout [T] on a driver
    as the source constructs it, however long the wait and whatever turns
    are offered afterwards, no sweeper runs, the request is still in the
    table and the future is still not ready.  For a timeout of 0.2 s and a
    wait of ten seconds the queued request has expired; on a driver whose
    sweeper runs, the same schedule leaves the future holding the empty
    optional. *)
Theorem timeout_never_fires_as_written T d ls :
  let code := exec (Issue TriggerPing (Some T) :: Elapse d :: ls)
                (boot 0 true (DvlA50Driver_ctor "192.168.194.95" 16171)) in
  let schedule := [Issue TriggerPing (Some (1 # 5)%Q);
                   Elapse 10000000000; Sweep; WdNotify] in
  let code10 := exec schedule
                  (boot 0 true (DvlA50Driver_ctor "192.168.194.95" 16171)) in
  let spec10 := exec schedule
                  (boot 0 true
                     (started (DvlA50Driver_ctor "192.168.194.95" 16171))) in
  (watchdog_thread_ (this (world code)) = None /\
   shared (world code) !! 0%nat = Some NotReady /\
   0%nat ∈ (promise <$> all_requests (responses_ (this (world code))))) /\
  (queue_of (responses_ (this (world code10))) "trigger_ping"
   = [mkRequest 0 (1 # 5)%Q 0%nat] /\
   expired (steady_clock (world code10)) (mkRequest 0 (1 # 5)%Q 0%nat) = true /\
   shared (world code10) !! 0%nat = Some NotReady) /\
  shared (world spec10) !! 0%nat = Some (HasValue None).
Proof.
  intros code schedule code10 spec10.
  split; [|split; [repeat split; reflexivity | reflexivity]].
  set (s0 := boot 0 true (DvlA50Driver_ctor "192.168.194.95" 16171)).
  assert (Hinv0 : inv s0) by (by apply inv_boot).
  assert (Hinv1 : inv (step (Issue TriggerPing (Some T)) s0))
    by (by apply inv_step).
  assert (Hinv : inv code) by (by apply inv_exec).
  assert (Hs : asleep code) by (by apply asleep_exec; [apply inv_boot|]).
  destruct Hs as (_ & Hw & Hrx & Hwd & Hc).
  assert (Hlt : (0 < length (shared (world code)))%nat).
  { unfold code. rewrite exec_cons.
    pose proof (exec_shared_length (Elapse d :: ls) _ Hinv1) as Hle.
    assert (Hone : length (shared (world (step (Issue TriggerPing (Some T)) s0)))
                   = 1%nat) by reflexivity.
    eapply Nat.lt_le_trans; [|exact Hle]. rewrite Hone. lia. }
  assert (Hin : 0%nat ∈ (promise <$> all_requests (responses_ (this (world code))))).
  { pose proof (inv_cover code Hinv 0%nat Hlt) as Hcov.
    unfold pending in Hcov. rewrite Hrx, Hwd, Hc in Hcov. simpl in Hcov.
    by rewrite !app_nil_r in Hcov. }
  split; [done|]. split; [|done].
  apply (inv_pending code Hinv). unfold pending. apply elem_of_app. by left.
Qed.

(** * Further properties of the source's member functions *)

(** ** What one call does to the store of shared states *)

(** X1: a call to [send_request] on a free mutex adds exactly one shared state,
    not ready, at a handle that named nothing before, and returns that
    handle; every shared state that existed keeps its content, and the
    clock, the link and the thread members are as they were. *)
Theorem send_request_store_frame type command timeout w :
  responses_mutex_ (this w) = false ->
  exists w',
    send_request type command timeout w = Done (length (shared w)) w' /\
    shared w !! length (shared w) = None /\
    shared w' = shared w ++ [NotReady] /\
    (forall p x, shared w !! p = Some x -> shared w' !! p = Some x) /\
    shared w' !! length (shared w) = Some NotReady /\
    steady_clock w' = steady_clock w /\
    link_up w' = link_up w /\
    poll_thread_ (this w') = poll_thread_ (this w) /\
    watchdog_thread_ (this w') = watchdog_thread_ (this w).
Proof.
  intros Hfree. exists (queued_world type timeout w).
  split; [by apply send_request_done|].
  split; [by apply lookup_ge_None_2|].
  split; [done|].
  split; [intros p x Hp; by apply lookup_app_l_Some|].
  split; [apply lookup_fresh|]. by repeat split.
Qed.

Lemma send_request_store_frame_witness :
  exists w',
    send_request "set_config" (set_config_payload EmptyString) (seconds 3)
      (world (exec [Issue TriggerPing None]
                (boot 7 true (DvlA50Driver_ctor "192.168.194.95" 16171))))
    = Done 1%nat w' /\
    shared w' = [NotReady; NotReady].
Proof.
  destruct (send_request_store_frame "set_config"
              (set_config_payload EmptyString) (seconds 3)
              (world (exec [Issue TriggerPing None]
                        (boot 7 true (DvlA50Driver_ctor "192.168.194.95" 16171))))
              eq_refl) as (w' & Hrun & _ & Hsh & _).
  exists w'. split; [exact Hrun | exact Hsh].
Defined.

(** ** Runs of the driver as constructed *)

(** With no activity running a turn is a command, the passing of time, or
    nothing. *)
Lemma asleep_step_cases l s :
  inv s -> asleep s ->
  step l s
  = match l with
    | Issue c t =>
        with_world
          (queued_world (command_type c) (timeout_arg t) (world s)) s
    | Elapse d => step_elapse d s
    | _ => s
    end.
Proof.
  intros Hinv (Hp & Hw & Hrx & Hwd & Hc).
  pose proof (inv_free s Hinv) as Hfree.
  destruct l as [c t|d|i| | |]; simpl.
  - by apply issue_turn.
  - done.
  - unfold step_receive, rx_reading. by rewrite Hp.
  - unfold step_rx_notify. by rewrite Hrx.
  - unfold step_sweep, wd_idle. by rewrite Hw.
  - unfold step_wd_notify. by rewrite Hwd.
Qed.

Lemma asleep_boot clock up ip port :
  asleep (boot clock up (DvlA50Driver_ctor ip port)).
Proof. by repeat split. Qed.

(** A property kept by commands and by the passing of time holds after
    every run. *)
Lemma code_run_ind (P : Sys -> Prop) :
  (forall s c t,
      inv s -> asleep s -> P s ->
      P (with_world (queued_world (command_type c) (timeout_arg t) (world s)) s)) ->
  (forall s d, inv s -> asleep s -> P s -> P (step_elapse d s)) ->
  forall ls s, inv s -> asleep s -> P s -> P (exec ls s).
Proof.
  intros Hissue Helapse ls.
  induction ls as [|l ls IH]; intros s Hinv Hs HP; [done|].
  rewrite exec_cons.
  apply IH; [by apply inv_step | by apply asleep_step|].
  rewrite asleep_step_cases by done.
  destruct l; auto.
Qed.

Lemma issued_cons l ls :
  issued (l :: ls)
  = match l with
    | Issue c t => (c, t) :: issued ls
    | _ => issued ls
    end.
Proof. by destruct l. Qed.

Lemma issued_timeouts_cons type l ls :
  issued_timeouts type (l :: ls)
  = match l with
    | Issue c t =>
        if decide (command_type c = type)
        then timeout_arg t :: issued_timeouts type ls
        else issued_timeouts type ls
    | _ => issued_timeouts type ls
    end.
Proof.
  unfold issued_timeouts. rewrite issued_cons. destruct l; try done.
  rewrite filter_cons. cbn [fst]. by destruct (decide (command_type c = type)).
Qed.

Lemma run_shared_length ls s :
  inv s -> asleep s ->
  length (shared (world (exec ls s)))
  = (length (shared (world s)) + length (issued ls))%nat.
Proof.
  revert s. induction ls as [|l ls IH]; intros s Hinv Hs.
  { simpl. lia. }
  rewrite exec_cons, IH by (by apply inv_step || by apply asleep_step).
  rewrite asleep_step_cases, issued_cons by done.
  destruct l; simpl; rewrite ?length_app; simpl; lia.
Qed.

(** ** Every call is queued once and stays queued *)

(** X2: after any run of the driver as constructed the store holds one shared
    state per command issued, and the promises queued in the table are
    exactly the handles of those commands, each once: no request is ever
    removed, lost or queued twice. *)
Theorem every_call_is_queued_once ip port clock up ls :
  let s := exec ls (boot clock up (DvlA50Driver_ctor ip port)) in
  length (shared (world s)) = length (issued ls) /\
  length (all_requests (responses_ (this (world s)))) = length (issued ls) /\
  promise <$> all_requests (responses_ (this (world s)))
  ≡ₚ seq 0 (length (issued ls)).
Proof.
  intros s.
  assert (Hinv0 : inv (boot clock up (DvlA50Driver_ctor ip port)))
    by (by apply inv_boot).
  assert (Hinv : inv s) by (by apply inv_exec).
  assert (Hs : asleep s) by (by apply asleep_exec; [|apply asleep_boot]).
  assert (Hlen : length (shared (world s)) = length (issued ls)).
  { unfold s. by rewrite run_shared_length by (done || apply asleep_boot). }
  destruct Hs as (_ & _ & Hrx & Hwd & Hc).
  assert (Hpend : pending s
                  = promise <$> all_requests (responses_ (this (world s)))).
  { unfold pending. rewrite Hrx, Hwd. simpl. by rewrite app_nil_r. }
  assert (Hperm : promise <$> all_requests (responses_ (this (world s)))
                  ≡ₚ seq 0 (length (issued ls))).
  { apply NoDup_Permutation.
    - pose proof (inv_nodup s Hinv) as Hnd.
      rewrite Hc, Hpend in Hnd. simpl in Hnd. by rewrite app_nil_r in Hnd.
    - apply NoDup_seq.
    - intros p. rewrite elem_of_seq, <- Hlen, <- Hpend. split.
      + intros Hp. split; [lia|]. simpl. apply pending_lt; [done|].
        apply elem_of_app. by left.
      + intros [_ Hp]. simpl in Hp. apply (inv_cover s Hinv) in Hp.
        rewrite Hc in Hp. simpl in Hp. by rewrite app_nil_r in Hp. }
  split; [done|]. split; [|done].
  apply Permutation_length in Hperm.
  by rewrite length_fmap, length_seq in Hperm.
Qed.

(** ** The queue of a type lists its calls in order *)

Lemma run_queue_timeouts type ls s :
  inv s -> asleep s ->
  timeout <$> queue_of (responses_ (this (world (exec ls s)))) type
  = (timeout <$> queue_of (responses_ (this (world s))) type)
      ++ issued_timeouts type ls.
Proof.
  revert s. induction ls as [|l ls IH]; intros s Hinv Hs.
  { simpl. by rewrite app_nil_r. }
  rewrite exec_cons, IH by (by apply inv_step || by apply asleep_step).
  rewrite asleep_step_cases, issued_timeouts_cons by done.
  destruct l as [c t|d|i| | |]; try done.
  cbn [world with_world].
  destruct (decide (command_type c = type)) as [<-|Hne].
  - rewrite queue_of_queued_world, fmap_app. cbn [fmap list_fmap timeout].
    by rewrite <- app_assoc.
  - by rewrite queue_of_queued_world_ne.
Qed.

(** X3: after any run of the driver as constructed, the queue of a type holds,
    oldest first, one request for each call of a command of that type, in
    the order of the calls, each with the timeout that call passed (3
    seconds where it passed none); calls of other types, the passing of
    time and anything arriving leave it alone. *)
Theorem queue_lists_calls_in_order ip port clock up ls type :
  let s := exec ls (boot clock up (DvlA50Driver_ctor ip port)) in
  timeout <$> queue_of (responses_ (this (world s))) type
  = issued_timeouts type ls.
Proof.
  intros s. unfold s.
  rewrite run_queue_timeouts by (by apply inv_boot || apply asleep_boot).
  done.
Qed.

(** ** Order, keys and the lock over whole runs *)

Lemma table_guarded_app h t1 t2 :
  table_guarded h (t1 ++ t2)
  = table_guarded h t1 && table_guarded (held_after h t1) t2.
Proof.
  revert h. induction t1 as [|e t1 IH]; intros h; [done|].
  destruct e; simpl; rewrite ?IH; try done; by rewrite andb_assoc.
Qed.

Lemma held_after_app h t1 t2 :
  held_after h (t1 ++ t2) = held_after (held_after h t1) t2.
Proof.
  revert h. induction t1 as [|e t1 IH]; intros h; [done|].
  by destruct e; simpl; rewrite ?IH.
Qed.

Lemma command_type_known c : command_type c ∈ known_types.
Proof. destruct c; unfold known_types; simpl; repeat constructor. Qed.

Lemma code_inv_boot clock up ip port :
  code_inv clock (boot clock up (DvlA50Driver_ctor ip port)).
Proof.
  by constructor.
Qed.

Lemma code_inv_issue clock0 s c t :
  code_inv clock0 s ->
  code_inv clock0
    (with_world (queued_world (command_type c) (timeout_arg t) (world s)) s).
Proof.
  intros [Hclock Hkeys Horder Hbounds Hguard Hrel Hev Hwire].
  set (type := command_type c).
  set (r := mkRequest (steady_clock (world s)) (timeout_arg t)
              (length (shared (world s)))).
  assert (Hold : forall x, x ∈ queue_of (responses_ (this (world s))) type ->
                           clock0 <= ts x <= steady_clock (world s) /\
                           (promise x < length (shared (world s)))%nat).
  { intros x Hx. unfold queue_of in Hx.
    destruct (responses_ (this (world s)) !! type) as [q|] eqn:Hq; simpl in Hx.
    - by apply (Hbounds type q).
    - by apply elem_of_nil in Hx. }
  constructor; cbn [world with_world].
  - done.
  - intros k q Hq. destruct (decide (k = type)) as [->|Hne].
    + rewrite queued_world_lookup in Hq. injection Hq as <-.
      split; [apply command_type_known|]. by destruct (queue_of _ _).
    + rewrite queued_world_lookup_ne in Hq by done. by apply Hkeys.
  - intros k q Hq. destruct (decide (k = type)) as [->|Hne].
    + rewrite queued_world_lookup in Hq. injection Hq as <-.
      apply StronglySorted_app_2.
      * intros x1 x2 H1 H2. apply list_elem_of_singleton in H2 as ->.
        destruct (Hold x1 H1) as [[_ Hts] Hpr]. by split.
      * unfold queue_of.
        destruct (responses_ (this (world s)) !! type) as [q|] eqn:Hq;
          simpl; [by apply (Horder type)|constructor].
      * repeat constructor.
    + rewrite queued_world_lookup_ne in Hq by done. by apply (Horder k).
  - intros k q x Hq Hx. cbn [queued_world shared steady_clock].
    rewrite length_app. cbn [length].
    assert (Hcase : x = r \/
                    (clock0 <= ts x <= steady_clock (world s) /\
                     (promise x < length (shared (world s)))%nat)).
    { destruct (decide (k = type)) as [->|Hne].
      - rewrite queued_world_lookup in Hq. injection Hq as <-.
        apply elem_of_app in Hx as [Hx|Hx]; [right; by apply Hold|left].
        by apply list_elem_of_singleton in Hx.
      - rewrite queued_world_lookup_ne in Hq by done. right.
        by apply (Hbounds k q). }
    destruct Hcase as [->|[Hts Hpr]]; [cbn [r ts promise]|]; lia.
  - cbn [queued_world trace]. rewrite table_guarded_app, Hguard, Hrel. done.
  - cbn [queued_world trace]. by rewrite held_after_app, Hrel.
  - cbn [queued_world trace]. by rewrite forallb_app, Hev.
  - done.
Qed.

Lemma code_inv_elapse clock0 s d :
  code_inv clock0 s -> code_inv clock0 (step_elapse d s).
Proof.
  intros [Hclock Hkeys Horder Hbounds Hguard Hrel Hev Hwire].
  constructor; cbn [world step_elapse with_world set_clock steady_clock this
                    shared trace wire]; try done.
  - lia.
  - intros k q x Hq Hx. destruct (Hbounds k q x Hq Hx) as [Hts Hpr].
    split; [lia|done].
Qed.

Lemma code_inv_run ip port clock up ls :
  code_inv clock (exec ls (boot clock up (DvlA50Driver_ctor ip port))).
Proof.
  apply (code_run_ind (code_inv clock)).
  - intros s c t _ _. apply code_inv_issue.
  - intros s d _ _. apply code_inv_elapse.
  - by apply inv_boot.
  - apply asleep_boot.
  - apply code_inv_boot.
Qed.

(** X4: when the calls do not overlap (each command returns before the next
    one is made: an [Issue] turn is one whole call), then after any run of
    the driver as constructed every queue is in issue order: an earlier
    entry has a time stamp that is not later and a promise made earlier than
    any entry behind it, and every time stamp lies between the clock at
    construction and the clock now.  For calls that overlap see
    [overlapping_calls]. *)
Theorem queues_in_issue_order ip port clock up ls type :
  let s := exec ls (boot clock up (DvlA50Driver_ctor ip port)) in
  let q := queue_of (responses_ (this (world s))) type in
  StronglySorted issued_before q /\
  Forall (fun r => clock <= ts r <= steady_clock (world s)) q.
Proof.
  intros s q. pose proof (code_inv_run ip port clock up ls) as Hci.
  fold s in Hci. unfold q, queue_of.
  destruct (responses_ (this (world s)) !! type) as [q'|] eqn:Hq; simpl.
  - split; [by apply (ci_order clock s Hci type)|].
    apply Forall_forall. intros r Hr.
    by destruct (ci_bounds clock s Hci type q' r Hq Hr).
  - split; constructor.
Qed.

(** X5: after any run of the driver as constructed the table has keys of the
    four public commands only, at most four of them, and no queue in it is
    empty: a key appears with its first request and is never left behind
    with nothing queued. *)
Theorem table_keys_known ip port clock up ls :
  let s := exec ls (boot clock up (DvlA50Driver_ctor ip port)) in
  (size (responses_ (this (world s))) <= 4)%nat /\
  forall k q, responses_ (this (world s)) !! k = Some q ->
              k ∈ known_types /\ q ≠ [].
Proof.
  intros s. pose proof (code_inv_run ip port clock up ls) as Hci.
  fold s in Hci. split; [|by apply (ci_keys clock s Hci)].
  rewrite <- size_dom.
  assert (Hsub : dom (responses_ (this (world s)))
                 ⊆ (list_to_set known_types : gset string)).
  { intros k [q Hq]%elem_of_dom. apply elem_of_list_to_set.
    by destruct (ci_keys clock s Hci k q Hq). }
  apply subseteq_size in Hsub. etrans; [exact Hsub|].
  rewrite size_list_to_set; [done|].
  apply (bool_decide_unpack _). by vm_compute.
Qed.

Lemma table_keys_known_witness :
  "trigger_ping" ∈ known_types /\
  [mkRequest 0 (seconds 3) 0%nat; mkRequest 5 (1 # 2)%Q 1%nat] ≠ [].
Proof.
  exact (proj2 (table_keys_known "192.168.194.95" 16171 0 true
                  [Issue TriggerPing None; Elapse 5;
                   Issue TriggerPing (Some (1 # 2)%Q)])
           "trigger_ping"
           [mkRequest 0 (seconds 3) 0%nat; mkRequest 5 (1 # 2)%Q 1%nat]
           eq_refl).
Defined.

(** X6: after any run of the driver as constructed the mutex is free, so the
    next command never blocks; every change of the table in the whole trace
    lies between a lock and its unlock; the trace holds locks, pushes and
    unlocks only; and nothing has reached the wire. *)
Theorem lock_discipline_over_runs ip port clock up ls :
  let s := exec ls (boot clock up (DvlA50Driver_ctor ip port)) in
  responses_mutex_ (this (world s)) = false /\
  table_guarded false (trace (world s)) = true /\
  held_after false (trace (world s)) = false /\
  forallb lock_push_unlock (trace (world s)) = true /\
  wire (world s) = [] /\
  forall c timeout,
    invoke c timeout (world s)
    = Done (length (shared (world s)))
           (queued_world (command_type c) (timeout_arg timeout) (world s)).
Proof.
  intros s. pose proof (code_inv_run ip port clock up ls) as Hci.
  fold s in Hci.
  assert (Hinv : inv s) by (by apply inv_exec, inv_boot).
  pose proof (inv_free s Hinv) as Hfree.
  split; [done|].
  split; [by apply (ci_guarded clock)|].
  split; [by apply (ci_released clock)|].
  split; [by apply (ci_events clock)|].
  split; [by apply (ci_wire clock)|].
  intros c timeout. by apply invoke_done.
Qed.

(** ** The payloads of the four commands *)

Lemma append_cancel_l h s1 s2 : h +:+ s1 = h +:+ s2 -> s1 = s2.
Proof.
  induction h as [|a h IH]; simpl; [done|]. intros Heq. apply IH.
  by injection Heq.
Qed.

Lemma append_cancel_r s1 s2 t : s1 +:+ t = s2 +:+ t -> s1 = s2.
Proof.
  intros Heq. apply (f_equal list_ascii_of_string) in Heq.
  rewrite !list_ascii_of_string_app in Heq. apply app_inv_tail in Heq.
  apply (f_equal string_of_list_ascii) in Heq.
  by rewrite !string_of_list_ascii_of_string in Heq.
Qed.

Lemma set_config_payload_inj c1 c2 :
  set_config_payload c1 = set_config_payload c2 -> c1 = c2.
Proof.
  unfold set_config_payload. intros Heq.
  apply append_cancel_l in Heq. by apply append_cancel_r in Heq.
Qed.

(** X7: the text a command builds for the device names the command: it opens
    with [{"command": ] and, in quotes, the very key under which the request
    is queued; and it determines the call, so that two calls build the same
    text only if they are the same command with the same config string. *)
Theorem payload_names_its_command :
  (forall c,
      String.prefix ("{" +:+ quoted "command" +:+ ": " +:+ quoted (command_type c))
                    (command_payload c) = true) /\
  (forall c1 c2, command_payload c1 = command_payload c2 -> c1 = c2).
Proof.
  split.
  - intros [| | |config]; reflexivity.
  - intros [| | |c1] [| | |c2] Heq; try reflexivity;
      try (cbv in Heq; discriminate Heq).
    cbn [command_payload] in Heq. apply set_config_payload_inj in Heq.
    by rewrite Heq.
Qed.

Lemma payload_names_its_command_witness :
  SetConfig (quoted "parameters" +:+ ": {}")
  = SetConfig (quoted "parameters" +:+ ": {}").
Proof.
  exact (proj2 payload_names_its_command
           (SetConfig (quoted "parameters" +:+ ": {}"))
           (SetConfig (quoted "parameters" +:+ ": {}")) eq_refl).
Defined.

(** ** What the destructor does to the shared states *)

(** X8: destroying the driver keeps the number of shared states; a queued
    promise whose shared state is not ready leaves it holding the
    broken-promise error; a shared state that already holds a value or the
    error is kept as it is; a shared state no queued request refers to is
    not touched; and destroying twice does no more than destroying once. *)
Theorem destructor_effect w :
  length (DvlA50Driver_dtor w) = length (shared w) /\
  (forall p, p ∈ queued_promises (responses_ (this w)) ->
             shared w !! p = Some NotReady ->
             DvlA50Driver_dtor w !! p = Some BrokenPromise) /\
  (forall p x, shared w !! p = Some x -> x ≠ NotReady ->
               DvlA50Driver_dtor w !! p = Some x) /\
  (forall p, p ∉ queued_promises (responses_ (this w)) ->
             DvlA50Driver_dtor w !! p = shared w !! p) /\
  DvlA50Driver_dtor (set_shared (DvlA50Driver_dtor w) w) = DvlA50Driver_dtor w.
Proof.
  split; [apply foldr_abandon_length|].
  split; [|split; [|split]].
  - intros p Hin Hp. unfold DvlA50Driver_dtor.
    rewrite foldr_abandon_lookup, decide_True by done. by rewrite Hp.
  - intros p x Hp Hx. unfold DvlA50Driver_dtor.
    rewrite foldr_abandon_lookup, Hp.
    destruct (decide (p ∈ _)); [|done]. by destruct x.
  - intros p Hnin. unfold DvlA50Driver_dtor.
    by rewrite foldr_abandon_lookup, decide_False.
  - apply list_eq. intros p. unfold DvlA50Driver_dtor at 1.
    cbn [set_shared shared this]. rewrite foldr_abandon_lookup.
    destruct (decide (p ∈ _)) as [Hin|Hnin]; [|done].
    unfold DvlA50Driver_dtor. rewrite foldr_abandon_lookup, decide_True by done.
    apply broken_idem.
Qed.

Lemma destructor_effect_witness :
  let w := world (exec [Issue CalibrateGyro None; Issue TriggerPing None]
                    (boot 0 true (DvlA50Driver_ctor "192.168.194.95" 16171))) in
  DvlA50Driver_dtor w !! 1%nat = Some BrokenPromise.
Proof.
  intros w.
  assert (Hq : queued_promises (responses_ (this w)) = [0%nat; 1%nat])
    by reflexivity.
  apply (proj1 (proj2 (destructor_effect w)) 1%nat); [|reflexivity].
  rewrite Hq. right. left.
Defined.

(** * Replies, races and disconnection on the driver as constructed *)






(** ** C2 *)



(** ** C3 *)


(** ** C5 *)



(** * Callers that overlap *)

Lemma send_request_stamp_done timeout w :
  send_request_stamp timeout w
  = Done (mkRequest (steady_clock w) timeout (length (shared w)))
         (set_shared (shared w ++ [NotReady]) w).
Proof. done. Qed.

Lemma send_request_queue_done type r w :
  responses_mutex_ (this w) = false ->
  send_request_queue type r w
  = Done (promise r)
      (mkWorld (steady_clock w) (shared w) (link_up w) (wire w)
         (mkDriver (poll_thread_ (this w)) (watchdog_thread_ (this w))
            (<[type := queue_of (responses_ (this w)) type ++ [r]]>
               (responses_ (this w)))
            false)
         (trace w ++ [EvLock; EvPush type r; EvUnlock])).
Proof.
  intros Hfree. destruct w as [clk sh up wr [pt wt m mx] tr].
  cbn [this responses_mutex_] in Hfree. subst mx.
  unfold send_request_queue. run_member. reflexivity.
Qed.

(** X9: [send_request] is its stamping half followed by its queuing half,
    and a second caller may run between the two.  When caller A has stamped
    its request, time passes, and caller B stamps and queues a request of
    the same type before A queues, the queue ends with B's request ahead of
    A's although A's time stamp is earlier and its promise older: the queue
    is in the order of the pushes, not of the time stamps. *)
Theorem overlapping_calls_queue_out_of_order type tA tB d w :
  responses_mutex_ (this w) = false ->
  (0 < d)%N ->
  (forall command,
      send_request type command tA
      = (request <- send_request_stamp tA ;; send_request_queue type request)) /\
  exists rA rB w',
    overlapping_calls type tA tB d w = Done (rA, rB) w' /\
    ts rA < ts rB /\
    (promise rA < promise rB)%nat /\
    queue_of (responses_ (this w')) type
    = queue_of (responses_ (this w)) type ++ [rB; rA] /\
    ~ StronglySorted issued_before (queue_of (responses_ (this w')) type).
Proof.
  intros Hfree Hd. split; [done|].
  set (rA := mkRequest (steady_clock w) tA (length (shared w))).
  set (rB := mkRequest (steady_clock w + Z.of_N d) tB (S (length (shared w)))).
  assert (Hrun : exists w',
             overlapping_calls type tA tB d w = Done (rA, rB) w' /\
             queue_of (responses_ (this w')) type
             = queue_of (responses_ (this w)) type ++ [rB; rA]).
  { unfold rA, rB.
    cbv [overlapping_calls send_request_stamp make_promise get_future
         steady_clock_now bind ret tick].
    cbn [steady_clock shared set_shared set_clock].
    rewrite send_request_queue_done by exact Hfree.
    rewrite send_request_queue_done by reflexivity.
    cbn [steady_clock shared set_shared set_clock this responses_ link_up wire
         poll_thread_ watchdog_thread_ trace responses_mutex_ promise].
    rewrite length_app. cbn [length]. rewrite Nat.add_1_r.
    eexists. split; [reflexivity|].
    cbn [this responses_]. unfold queue_of at 1 2.
    rewrite !lookup_insert_eq. cbn [default id].
    by rewrite <- app_assoc. }
  destruct Hrun as (w' & Hrun & Hq).
  exists rA, rB, w'. split; [exact Hrun|].
  split; [unfold rA, rB; cbn [ts]; lia|].
  split; [unfold rA, rB; cbn [promise]; lia|].
  split; [exact Hq|].
  rewrite Hq. intros Hsorted.
  apply StronglySorted_app in Hsorted as (_ & _ & Hlast).
  apply StronglySorted_cons in Hlast as [Hall _].
  apply Forall_cons in Hall as [[Hts _] _].
  unfold rA, rB in Hts. cbn [ts] in Hts. lia.
Qed.

Lemma overlapping_calls_queue_out_of_order_witness :
  exists rA rB w',
    overlapping_calls "trigger_ping" (seconds 3) (seconds 3) 10
      (world (boot 0 true (DvlA50Driver_ctor "192.168.194.95" 16171)))
    = Done (rA, rB) w' /\
    queue_of (responses_ (this w')) "trigger_ping"
    = [mkRequest 10 (seconds 3) 1%nat; mkRequest 0 (seconds 3) 0%nat].
Proof.
  destruct (overlapping_calls_queue_out_of_order "trigger_ping" (seconds 3)
              (seconds 3) 10
              (world (boot 0 true (DvlA50Driver_ctor "192.168.194.95" 16171)))
              eq_refl eq_refl)
    as (_ & rA & rB & w' & Hrun & _ & _ & _ & _).
  exists rA, rB, w'. split; [exact Hrun|].
  revert Hrun. vm_compute. intros Hrun. by injection Hrun as _ _ <-.
Defined.
